(** * ConnectionFactory (src/connection-factory.ts)

    A shallow embedding of the factory that feeds the connection pool of the
    Faktory worker: [create], [destroy] and [validate], together with the
    part of the [Connection] object (an event emitter with a [connected]
    flag) that the factory touches.

    Conventions.
    - A method is a [Task]: a tree of synchronous steps and awaits that
      ends by returning or throwing.  It acts on a [State]: the factory
      object ([this]), the world outside the factory ([env]) and the list of
      everything the factory did and saw ([log]).
    - [run] executes one invocation to its end, the way a caller that awaits
      each call before making the next sees it.  [turn] is one turn of the
      event loop when several invocations of [create] are in flight: an
      invocation runs alone from one await to the next.
    - [attempts] is a JavaScript number that only ever holds 0 or the result
      of adding 1 to itself; it is modelled as an integer of [Z], which is
      exact below 2^53.
    - What [open()], [close()], [sleep()] and the injected handshake do to
      the outside world is not fixed by the factory: they are parameters that
      may change [env] in any way and settle either way.  They cannot reach
      the factory object itself. *)

From Stdlib Require Import ZArith Lia.
From stdpp Require Import base option list strings.

Local Open Scope Z_scope.

(** ** Values shared with the collaborators *)

(** [port: string | number] *)
Inductive Port : Type :=
| PortString (s : string)
| PortNumber (n : Z).

(** Identity of a [Connection] instance: its index in the heap of connection
    objects.  Two references are the same object iff they are equal. *)
Abbreviation ConnRef := nat (only parsing).

(** A function value of type [(err: Error) => void], by identity.
    [ConsoleError] is [console.error.bind(console)]. *)
Inductive ErrorSink : Type :=
| ConsoleError
| UserSink (tag : nat).

(** The two kinds of listener the factory registers:
    [this.onConnectionError] and [() => connection.removeAllListeners()]. *)
Inductive Listener : Type :=
| SinkListener (k : ErrorSink)
| RemoveAllListenersOf (c : ConnRef).

#[global] Instance Port_eq_dec : EqDecision Port.
Proof. solve_decision. Defined.
#[global] Instance ErrorSink_eq_dec : EqDecision ErrorSink.
Proof. solve_decision. Defined.
#[global] Instance Listener_eq_dec : EqDecision Listener.
Proof. solve_decision. Defined.

Section Factory.

(** Data that is opaque to the factory: thrown values, the server greeting,
    the TLS configuration and the state of the network. *)
Context {Error Greeting TlsOptions Net : Type}.

(** A settled promise: rejected with a reason, or fulfilled with a value. *)
Definition Outcome (A : Type) : Type := (Error + A)%type.

(** ** The Connection object *)

(** Modelled from the spec: the [Connection] class lives in
    [./connection], outside the given source.  The spec gives it the
    constructor arguments, an open/closed status [connected] and event
    registration for ["error"] and ["close"] notifications delivered to the
    registered listeners. *)
Record Connection : Type := mkConnection {
  conn_port : Port;
  conn_host : string;
  conn_tlsOptions : TlsOptions;
  connected : bool;
  listeners : list (string * Listener);
}.

(** The world outside the factory: the connection objects, what the error
    sinks were called with, and the network. *)
Record Env : Type := mkEnv {
  heap : list Connection;
  reported : list (ErrorSink * option Error);
  net : Net;
}.

Definition with_heap (h : list Connection) (w : Env) : Env :=
  {| heap := h; reported := reported w; net := net w |}.

Definition with_reported (r : list (ErrorSink * option Error)) (w : Env) : Env :=
  {| heap := heap w; reported := r; net := net w |}.

Definition set_listeners (ls : list (string * Listener)) (x : Connection)
  : Connection :=
  {| conn_port := conn_port x; conn_host := conn_host x;
     conn_tlsOptions := conn_tlsOptions x; connected := connected x;
     listeners := ls |}.

(** Modelled from the spec: [new Connection(port, host, tlsOptions)], a
    fresh unopened object bound to the given address. *)
Definition env_new (p : Port) (h : string) (t : TlsOptions) (w : Env)
  : ConnRef * Env :=
  (length (heap w),
   with_heap (heap w ++ [mkConnection p h t false []]) w).

(** Modelled from the spec: [connection.on(event, listener)] appends the
    listener to the ones registered on that object. *)
Definition env_on (c : ConnRef) (ev : string) (l : Listener) (w : Env) : Env :=
  with_heap (alter (λ x, set_listeners (listeners x ++ [(ev, l)]) x) c (heap w)) w.

(** Modelled from the spec: [connection.removeAllListeners()]. *)
Definition env_removeAllListeners (c : ConnRef) (w : Env) : Env :=
  with_heap (alter (set_listeners []) c (heap w)) w.

(** The listeners of [c], and those registered for one event. *)
Definition listeners_of (c : ConnRef) (w : Env) : list (string * Listener) :=
  from_option listeners [] (heap w !! c).

Definition listeners_for (c : ConnRef) (ev : string) (w : Env) : list Listener :=
  snd <$> filter (λ p, p.1 = ev) (listeners_of c w).

(** Running one listener with the notification's argument: the sink is
    called with it; the listener [destroy] registers calls
    [connection.removeAllListeners()]. *)
Definition run_listener (arg : option Error) (l : Listener) (w : Env) : Env :=
  match l with
  | SinkListener k => with_reported (reported w ++ [(k, arg)]) w
  | RemoveAllListenersOf c => env_removeAllListeners c w
  end.

(** Modelled from the spec: the connection signals [ev]; every listener
    registered for [ev] at that moment runs, in registration order. *)
Definition emit (c : ConnRef) (ev : string) (arg : option Error) (w : Env) : Env :=
  foldl (λ w' l, run_listener arg l w') w (listeners_for c ev w).

(** [connection.connected]; a reference always denotes an object of the
    heap, the default is never read. *)
Definition env_connected (c : ConnRef) (w : Env) : bool :=
  from_option connected false (heap w !! c).

(** ** The factory object *)

(** [type handshaker = (conn, greeting) => Promise<string>] *)
Definition handshaker : Type :=
  ConnRef → Greeting → Env → Outcome string * Env.

Record ConnectionFactory : Type := mkFactory {
  host : string;
  port : Port;
  handshake : handshaker;
  tlsOptions : TlsOptions;
  attempts : Z;
  onConnectionError : ErrorSink;
}.

(** The constructor's argument [{host, port, handshake, tlsOptions}]. *)
Record Options : Type := mkOptions {
  opt_host : string;
  opt_port : Port;
  opt_handshake : handshaker;
  opt_tlsOptions : TlsOptions;
}.

Definition constructor (o : Options) : ConnectionFactory :=
  {| host := opt_host o;
     port := opt_port o;
     handshake := opt_handshake o;
     tlsOptions := opt_tlsOptions o;
     attempts := 0;
     onConnectionError := ConsoleError |}.

Definition with_attempts (n : Z) (f : ConnectionFactory) : ConnectionFactory :=
  {| host := host f; port := port f; handshake := handshake f;
     tlsOptions := tlsOptions f; attempts := n;
     onConnectionError := onConnectionError f |}.

(** ** What the factory does, in order *)

(** The factory's own actions ([debug], [new Connection], [on], and the
    calls [open()], [handshake(c, g)], [sleep(ms)] and [close()], each of
    which returns a promise), and the settlements of the promises it awaits:
    [Opened], [Handshaken], [Slept] and [Closed]. *)
Inductive Event : Type :=
| Debug (fmt : string) (args : list Z)
| New (c : ConnRef) (p : Port) (h : string) (t : TlsOptions)
| On (c : ConnRef) (ev : string) (l : Listener)
| Open (c : ConnRef)
| Opened (c : ConnRef) (r : Outcome Greeting)
| Handshake (c : ConnRef) (g : Greeting)
| Handshaken (c : ConnRef) (g : Greeting) (r : Outcome string)
| Sleep (ms : Z)
| Slept (ms : Z)
| Close (c : ConnRef)
| Closed (c : ConnRef) (r : Outcome unit).

Record State : Type := mkState {
  this : ConnectionFactory;
  env : Env;
  log : list Event;
}.

(** ** Asynchronous methods *)

(** How a promise settles, as the caller of the method sees it. *)
Inductive Settled (A : Type) : Type :=
| Fulfilled (v : A)
| Rejected (e : Error).
Global Arguments Fulfilled {A} v.
Global Arguments Rejected {A} e.

(** A synchronous step of a method, with the type of its result:
    [debug(...)], a read of [this], [this.attempts = n],
    [new Connection(...)], [connection.on(...)], [connection.connected]. *)
Inductive Step : Type → Type :=
| Trace (fmt : string) (args : list Z) : Step unit
| ReadThis : Step ConnectionFactory
| WriteAttempts (n : Z) : Step unit
| Construct (p : Port) (h : string) (t : TlsOptions) : Step ConnRef
| Register (c : ConnRef) (ev : string) (l : Listener) : Step unit
| ReadConnected (c : ConnRef) : Step bool.

(** A call of a collaborator that returns a promise, with the type the
    promise fulfils with: [connection.open()], [h(connection, greeting)],
    [sleep(ms)], [connection.close()]. *)
Inductive Pending : Type → Type :=
| Opening (c : ConnRef) : Pending Greeting
| Handshaking (h : handshaker) (c : ConnRef) (g : Greeting) : Pending string
| Sleeping (ms : Z) : Pending unit
| Closing (c : ConnRef) : Pending unit.

(** A method body: it returns, throws, takes a synchronous step, or is
    suspended on a promise until the promise settles.  Between two
    suspensions nothing else runs. *)
Inductive Task (R : Type) : Type :=
| Return (v : R)
| Throw (e : Error)
| Do {X : Type} (a : Step X) (k : X → Task R)
| Await {X : Type} (p : Pending X) (k : Outcome X → Task R).
Global Arguments Return {R} v.
Global Arguments Throw {R} e.
Global Arguments Do {R X} a k.
Global Arguments Await {R X} p k.

Fixpoint bind {A B} (t : Task A) (f : A → Task B) : Task B :=
  match t with
  | Return v => f v
  | Throw e => Throw e
  | Do a k => Do a (λ x, bind (k x) f)
  | Await p k => Await p (λ r, bind (k r) f)
  end.

#[global] Instance Task_ret : MRet Task := @Return.
#[global] Instance Task_bind : MBind Task := λ A B f t, bind t f.

(** [try { body } catch (e) { handler }] *)
Fixpoint try_catch {A} (body : Task A) (handler : Error → Task A) : Task A :=
  match body with
  | Return v => Return v
  | Throw e => handler e
  | Do a k => Do a (λ x, try_catch (k x) handler)
  | Await p k => Await p (λ r, try_catch (k r) handler)
  end.

Definition step {X} (a : Step X) : Task X := Do a Return.

(** [await p]: the method resumes with the value the promise fulfils with;
    a rejection is thrown at the await. *)
Definition await {X} (p : Pending X) : Task X :=
  Await p (λ r, match r with
                | inl e => Throw e
                | inr v => Return v
                end).

(** [debug(fmt, ...args)] *)
Definition debug (fmt : string) (args : list Z) : Task unit :=
  step (Trace fmt args).

(** ** The three pool-facing operations *)

(** [async create(): Promise<Connection>] *)
Definition create : Task ConnRef :=
  debug "+1" [];;
  this ← step ReadThis;
  connection ← step (Construct (port this) (host this) (tlsOptions this));
  this ← step ReadThis;
  step (Register connection "error" (SinkListener (onConnectionError this)));;
  try_catch
    (greeting ← await (Opening connection);
     this ← step ReadThis;
     _ ← await (Handshaking (handshake this) connection greeting);
     step (WriteAttempts 0))
    (λ e,
     this ← step ReadThis;
     step (WriteAttempts (attempts this + 1));;
     this ← step ReadThis;
     let napTime := 200 * Z.min (attempts this) 20 in
     this ← step ReadThis;
     debug "connection failed: attempts=%i backoff=%ims" [attempts this; napTime];;
     await (Sleeping napTime);;
     Throw e);;
  mret connection.

(** [destroy(connection: Connection): Promise<void>] *)
Definition destroy (connection : ConnRef) : Task unit :=
  debug "-1" [];;
  step (Register connection "close" (RemoveAllListenersOf connection));;
  await (Closing connection).

(** [async validate(connection: Connection): Promise<boolean>] *)
Definition validate (connection : ConnRef) : Task bool :=
  step (ReadConnected connection).

(** ** What the steps do *)

Definition record (ev : Event) (s : State) : State :=
  {| this := this s; env := env s; log := log s ++ [ev] |}.

Definition with_env (w : Env) (s : State) : State :=
  {| this := this s; env := w; log := log s |}.

Definition perform {X} (a : Step X) (s : State) : X * State :=
  match a in Step X return X * State with
  | Trace fmt args => (tt, record (Debug fmt args) s)
  | ReadThis => (this s, s)
  | WriteAttempts n =>
      (tt, {| this := with_attempts n (this s); env := env s; log := log s |})
  | Construct p h t =>
      let '(c, w) := env_new p h t (env s) in
      (c, record (New c p h t) (with_env w s))
  | Register c ev l => (tt, record (On c ev l) (with_env (env_on c ev l (env s)) s))
  | ReadConnected c => (env_connected c (env s), s)
  end.

(** [Connection.prototype.open], [Connection.prototype.close] and [sleep]
    of [./utils]: what they do to the world and how they settle. *)
Variable open_io : ConnRef → Env → Outcome Greeting * Env.
Variable close_io : ConnRef → Env → Outcome unit * Env.
Variable sleep_io : Z → Env → Env.

(** The call that returns the promise [p]. *)
Definition call {X} (p : Pending X) (s : State) : State :=
  match p with
  | Opening c => record (Open c) s
  | Handshaking h c g => record (Handshake c g) s
  | Sleeping ms => record (Sleep ms) s
  | Closing c => record (Close c) s
  end.

(** The promise [p] settles: the collaborator has done its work on the
    world.  Modelled from the spec: [sleep] of [./utils] suspends for the
    duration and then fulfils. *)
Definition settle {X} (p : Pending X) (s : State) : Outcome X * State :=
  match p in Pending X return Outcome X * State with
  | Opening c =>
      let '(r, w) := open_io c (env s) in
      (r, record (Opened c r) (with_env w s))
  | Handshaking h c g =>
      let '(r, w) := h c g (env s) in
      (r, record (Handshaken c g r) (with_env w s))
  | Sleeping ms => (inr tt, record (Slept ms) (with_env (sleep_io ms (env s)) s))
  | Closing c =>
      let '(r, w) := close_io c (env s) in
      (r, record (Closed c r) (with_env w s))
  end.

(** One invocation run to its end with nothing else in between: every
    promise it awaits settles before anything else happens. *)
Fixpoint run {R} (t : Task R) (s : State) : Settled R * State :=
  match t with
  | Return v => (Fulfilled v, s)
  | Throw e => (Rejected e, s)
  | Do a k => let '(x, s') := perform a s in run (k x) s'
  | Await p k => let '(r, s') := settle p (call p s) in run (k r) s'
  end.

(** ** Invocations in flight

    The pool may call [create()] again while earlier invocations are
    suspended.  A suspended invocation resumes when the promise it awaits
    settles, and then runs alone up to its next await or its end. *)

(** Runs [t] up to its next await, whose call it makes, or to its end. *)
Fixpoint advance {R} (t : Task R) (s : State) : Task R * State :=
  match t with
  | Return v => (Return v, s)
  | Throw e => (Throw e, s)
  | Do a k => let '(x, s') := perform a s in advance (k x) s'
  | Await p k => (Await p k, call p s)
  end.

Record Loop : Type := mkLoop {
  factory : State;
  in_flight : list (Task ConnRef);
  results : list (Settled ConnRef);
}.

(** An invocation that ended settles the promise [create()] returned; one
    that is suspended joins the invocations in flight. *)
Definition park (t : Task ConnRef) (s : State)
    (waiting : list (Task ConnRef)) (done : list (Settled ConnRef)) : Loop :=
  match t with
  | Return v => mkLoop s waiting (done ++ [Fulfilled v])
  | Throw e => mkLoop s waiting (done ++ [Rejected e])
  | Do _ _ | Await _ _ => mkLoop s (waiting ++ [t]) done
  end.

(** What happens next: the pool calls [create()], or the promise awaited by
    the [i]-th invocation in flight settles. *)
Inductive Turn : Type :=
| Invoke
| Resume (i : nat).

Definition turn (L : Loop) (τ : Turn) : Loop :=
  match τ with
  | Invoke =>
      let '(t, s) := advance create (factory L) in
      park t s (in_flight L) (results L)
  | Resume i =>
      match in_flight L !! i with
      | Some (Await p k) =>
          let '(r, s1) := settle p (factory L) in
          let '(t, s2) := advance (k r) s1 in
          park t s2 (delete i (in_flight L)) (results L)
      | _ => L
      end
  end.

Definition turns (τs : list Turn) (L : Loop) : Loop := foldl turn L τs.

(** ** Vocabulary of the statements *)

(** What the factory did between two states. *)
Definition since (s s' : State) : list Event :=
  drop (length (log s)) (log s').

(** The delays of the calls of [sleep], in order. *)
Definition naps (evs : list Event) : list Z :=
  omap (λ ev, match ev with Sleep ms => Some ms | _ => None end) evs.

(** The delays of the sleeps that ended, in order. *)
Definition slept (evs : list Event) : list Z :=
  omap (λ ev, match ev with Slept ms => Some ms | _ => None end) evs.

(** The calls of [close()]. *)
Definition closes (evs : list Event) : list ConnRef :=
  omap (λ ev, match ev with Close c => Some c | _ => None end) evs.

(** The I/O among the events: the calls of the collaborators' asynchronous
    operations and their settlements. *)
Definition is_io (ev : Event) : bool :=
  match ev with
  | Open _ | Opened _ _ | Handshake _ _ | Handshaken _ _ _
  | Sleep _ | Slept _ | Close _ | Closed _ _ => true
  | Debug _ _ | New _ _ _ _ | On _ _ _ => false
  end.

(** The settlement of a promise that settles as [r] does. *)
Definition settled_as {A} (r : Outcome A) : Settled A :=
  match r with
  | inl e => Rejected e
  | inr v => Fulfilled v
  end.

Definition is_rejected {A} (r : Settled A) : bool :=
  match r with Rejected _ => true | Fulfilled _ => false end.

(** The connection object a [create()] started in [s] allocates, and the
    world in which it calls [open()]: the object exists and the error sink
    is registered on it. *)
Definition new_ref (s : State) : ConnRef := length (heap (env s)).

Definition env_at_open (s : State) : Env :=
  env_on (new_ref s) "error" (SinkListener (onConnectionError (this s)))
    (env_new (port (this s)) (host (this s)) (tlsOptions (this s)) (env s)).2.

(** How the [try] block of that [create()] goes: [open()] rejects, or it
    fulfils with a greeting and the injected handshake, called with the
    connection and the greeting, rejects or fulfils.  The second component
    is the world the block leaves. *)
Definition attempt (s : State) : Outcome string * Env :=
  match open_io (new_ref s) (env_at_open s) with
  | (inl e, w) => (inl e, w)
  | (inr greeting, w) => handshake (this s) (new_ref s) greeting w
  end.

(** What [open()] or the handshake threw, if one of them did. *)
Definition thrown (s : State) : option Error :=
  match (attempt s).1 with
  | inl e => Some e
  | inr _ => None
  end.

(** The world in which [destroy(c)] started in [s] calls [close()]. *)
Definition env_at_close (c : ConnRef) (s : State) : Env :=
  env_on c "close" (RemoveAllListenersOf c) (env s).

(** [n] invocations of [create()], one after the other. *)
Fixpoint creates (n : nat) (s : State) : list (Settled ConnRef) * State :=
  match n with
  | O => ([], s)
  | S n' =>
      let '(r, s1) := run create s in
      let '(rs, s2) := creates n' s1 in
      (r :: rs, s2)
  end.

(** The pool's calls into the factory, and how each one settled. *)
Inductive Call : Type :=
| CallCreate
| CallDestroy (c : ConnRef)
| CallValidate (c : ConnRef).

Inductive Reply : Type :=
| Created (r : Settled ConnRef)
| Destroyed (r : Settled unit)
| Validated (r : Settled bool).

Definition serve (call : Call) (s : State) : Reply * State :=
  match call with
  | CallCreate => let '(r, s') := run create s in (Created r, s')
  | CallDestroy c => let '(r, s') := run (destroy c) s in (Destroyed r, s')
  | CallValidate c => let '(r, s') := run (validate c) s in (Validated r, s')
  end.

Fixpoint serve_all (calls : list Call) (s : State) : list Reply * State :=
  match calls with
  | [] => ([], s)
  | call :: calls' =>
      let '(r, s1) := serve call s in
      let '(rs, s2) := serve_all calls' s1 in
      (r :: rs, s2)
  end.

(** The number of failed [create()] calls at the end of a history with no
    successful [create()] after them; the history is read backwards from
    its last reply. *)
Fixpoint failures_at_end (newest_first : list Reply) : nat :=
  match newest_first with
  | [] => O
  | Created (Rejected _) :: older => S (failures_at_end older)
  | Created (Fulfilled _) :: _ => O
  | (Destroyed _ | Validated _) :: older => failures_at_end older
  end.

Definition consecutive_failures (replies : list Reply) : nat :=
  failures_at_end (reverse replies).

(** The factory of a fresh pool: constructed, nothing done yet. *)
Definition initial (o : Options) (w : Env) : State :=
  {| this := constructor o; env := w; log := [] |}.

(** The failures among the events: [open()] or the handshake rejected.  A
    fulfilled handshake ends a series of failures. *)
Definition is_failure (ev : Event) : bool :=
  match ev with
  | Opened _ (inl _) | Handshaken _ _ (inl _) => true
  | _ => false
  end.

Definition count_failure (n : nat) (ev : Event) : nat :=
  match ev with
  | Opened _ (inl _) | Handshaken _ _ (inl _) => S n
  | Handshaken _ _ (inr _) => O
  | _ => n
  end.

(** The number of failures in a row at the end of the events. *)
Definition failures_in_a_row (evs : list Event) : nat :=
  foldl count_failure O evs.

(** For each failure among the events, in order, how many failures in a row
    it completes, [n] of them having come before the events. *)
Fixpoint ranks_from (n : nat) (evs : list Event) : list nat :=
  match evs with
  | [] => []
  | ev :: evs' =>
      (if is_failure ev then [count_failure n ev] else []) ++
      ranks_from (count_failure n ev) evs'
  end.

Definition failure_ranks (evs : list Event) : list nat := ranks_from O evs.

(** What holds of the factory while no invocation is running: the counter
    is the number of failures in a row, and [sleep] was called once per
    failure, with the delay of that failure's rank. *)
Definition backoff_invariant (s : State) : Prop :=
  attempts (this s) = Z.of_nat (failures_in_a_row (log s)) ∧
  naps (log s) =
    (λ k : nat, 200 * Z.min (Z.of_nat k) 20) <$> failure_ranks (log s).

(** [t], run from [s], re-establishes the invariant each time it suspends
    and when it ends, and leaves the counter at 0 when it returns, provided
    the invariant holds each time it resumes. *)
Fixpoint keeps_invariant {R} (t : Task R) (s : State) : Prop :=
  match t with
  | Return _ => backoff_invariant s ∧ attempts (this s) = 0
  | Throw _ => backoff_invariant s
  | Do a k => keeps_invariant (k (perform a s).1) (perform a s).2
  | Await p k =>
      backoff_invariant (call p s) ∧
      ∀ s1, backoff_invariant s1 →
            keeps_invariant (k (settle p s1).1) (settle p s1).2
  end.

Definition resumable {R} (t : Task R) : Prop :=
  match t with
  | Await p k =>
      ∀ s1, backoff_invariant s1 →
            keeps_invariant (k (settle p s1).1) (settle p s1).2
  | Return _ | Throw _ | Do _ _ => True
  end.

Definition returned_with_reset {R} (t : Task R) (s : State) : Prop :=
  match t with
  | Return _ => attempts (this s) = 0
  | Throw _ | Do _ _ | Await _ _ => True
  end.

(** The event loop of a fresh pool. *)
Definition idle (o : Options) (w : Env) : Loop :=
  {| factory := initial o w; in_flight := []; results := [] |}.

(** ** More vocabulary: what the events and the calls show *)

(** The connections constructed, the connections [open()] was called on and
    the calls of the handshake with their arguments, in order. *)
Definition constructed (evs : list Event) : list ConnRef :=
  omap (λ ev, match ev with New c _ _ _ => Some c | _ => None end) evs.

Definition opens (evs : list Event) : list ConnRef :=
  omap (λ ev, match ev with Open c => Some c | _ => None end) evs.

Definition handshakes (evs : list Event) : list (ConnRef * Greeting) :=
  omap (λ ev, match ev with Handshake c g => Some (c, g) | _ => None end) evs.

(** The arguments of the trace lines of format [fmt], in order. *)
Definition traced (fmt : string) (evs : list Event) : list (list Z) :=
  omap (λ ev, match ev with
              | Debug f args => if decide (f = fmt) then Some args else None
              | _ => None
              end) evs.


(** A delay of the ramp: a multiple of 200 between 200 and 4000. *)
Definition within_bounds (ms : Z) : Prop :=
  200 ≤ ms ≤ 4000 ∧ (200 | ms).

(** The connections the pool asks to destroy, in order; the calls of
    [create]; the calls and replies of [validate]. *)
Definition destroyed (calls : list Call) : list ConnRef :=
  omap (λ call, match call with CallDestroy c => Some c | _ => None end) calls.

Definition is_create (call : Call) : bool :=
  match call with CallCreate => true | _ => false end.

Definition is_validate (call : Call) : bool :=
  match call with CallValidate _ => true | _ => false end.

Definition is_validated (reply : Reply) : bool :=
  match reply with Validated _ => true | _ => false end.

(** The errors the awaited promises rejected with, and the errors the
    calls of the pool were rejected with, in order. *)
Definition errors_seen (evs : list Event) : list Error :=
  omap (λ ev, match ev with
              | Opened _ (inl e) | Handshaken _ _ (inl e) | Closed _ (inl e) =>
                  Some e
              | _ => None
              end) evs.

Definition errors_raised (replies : list Reply) : list Error :=
  omap (λ reply, match reply with
                 | Created (Rejected e) | Destroyed (Rejected e)
                 | Validated (Rejected e) => Some e
                 | _ => None
                 end) replies.

Definition is_failed_create (reply : Reply) : bool :=
  match reply with Created (Rejected _) => true | _ => false end.

(** The sum of some delays. *)
Definition total (delays : list Z) : Z := foldr Z.add 0 delays.

(** The sum of the delays of [n] failures in a row, counted from a counter
    of 0, in closed form. *)
Definition ramp_total (n : Z) : Z :=
  if n <=? 20 then 100 * n * (n + 1) else 42000 + 4000 * (n - 20).

(** The event is what a factory constructed from [o] does: a connection is
    constructed with the port, host and TLS options of [o], and the error
    sink registered is the default one. *)
Definition configured_by (o : Options) (ev : Event) : Prop :=
  match ev with
  | New _ p h t => p = opt_port o ∧ h = opt_host o ∧ t = opt_tlsOptions o
  | On _ _ (SinkListener k) => k = ConsoleError
  | _ => True
  end.

(** What the sinks listening to [ev] on [c] are called with when [c]
    signals [ev] with [arg]. *)
Definition deliveries (c : ConnRef) (ev : string) (arg : option Error) (w : Env)
  : list (ErrorSink * option Error) :=
  omap (λ l, match l with
             | SinkListener k => Some (k, arg)
             | RemoveAllListenersOf _ => None
             end) (listeners_for c ev w).

End Factory.

(** ** A scripted server

    A concrete world to run the factory in: the network holds the settlements
    of the coming [open()] and handshake calls, in order ([None] fulfils,
    [Some e] rejects with [e]; past the end of the script every call
    fulfils), and a clock advanced by [sleep]. *)
Module Scripted.

Record Net : Type := mkNet {
  script : list (option string);
  clock : Z;
}.

Definition World : Type := @Env string (option string) Net.

Definition set_connected (b : bool) (x : @Connection (option string))
  : @Connection (option string) :=
  {| conn_port := conn_port x; conn_host := conn_host x;
     conn_tlsOptions := conn_tlsOptions x; connected := b;
     listeners := listeners x |}.

Definition next_settlement (w : World) : option string * World :=
  match script (net w) with
  | [] => (None, w)
  | o :: rest =>
      (o, {| heap := heap w; reported := reported w;
             net := {| script := rest; clock := clock (net w) |} |})
  end.

(** [open()]: on success the connection becomes connected and the server's
    greeting is returned; on failure the connection signals ["error"] and
    the promise rejects. *)
Definition open_io (c : ConnRef) (w : World) : (string + string) * World :=
  match next_settlement w with
  | (None, w') => (inr "HI", with_heap (alter (set_connected true) c (heap w')) w')
  | (Some e, w') => (inl e, emit c "error" (Some e) w')
  end.

(** The handshake: fulfils with the worker id or rejects. *)
Definition handshake_io (c : ConnRef) (g : string) (w : World)
  : (string + string) * World :=
  match next_settlement w with
  | (None, w') => (inr "wid", w')
  | (Some e, w') => (inl e, w')
  end.

(** [close()]: the connection becomes closed and signals ["close"]. *)
Definition close_io (c : ConnRef) (w : World) : (string + unit) * World :=
  (inr tt, emit c "close" None (with_heap (alter (set_connected false) c (heap w)) w)).

Definition sleep_io (ms : Z) (w : World) : World :=
  {| heap := heap w; reported := reported w;
     net := {| script := script (net w); clock := clock (net w) + ms |} |}.

Definition options : @Options string string (option string) Net :=
  {| opt_host := "localhost"; opt_port := PortNumber 7419;
     opt_handshake := handshake_io; opt_tlsOptions := None |}.

(** A world with no connection yet and the given script. *)
Definition world (sc : list (option string)) : World :=
  {| heap := []; reported := []; net := {| script := sc; clock := 0 |} |}.

(** A server that refuses the next [n] connections. *)
Definition outage (n : nat) : list (option string) :=
  replicate n (Some "ECONNREFUSED").

(** A server that accepts connections and rejects the first two handshakes. *)
Definition two_bad_handshakes : list (option string) :=
  [None; Some "denied"; None; Some "denied"; None; None].

Definition Factory : Type := @State string string (option string) Net.

Definition start (sc : list (option string)) : Factory :=
  initial options (world sc).

Definition run {R} (t : Task R) : Factory → Settled R * Factory :=
  run open_io close_io sleep_io t.
Definition creates (n : nat) : Factory → list (Settled ConnRef) * Factory :=
  creates open_io close_io sleep_io n.
Definition serve_all (calls : list Call) : Factory → list Reply * Factory :=
  serve_all open_io close_io sleep_io calls.
Definition turns (τs : list Turn) : @Loop string string (option string) Net
                                    → @Loop string string (option string) Net :=
  turns open_io close_io sleep_io τs.

End Scripted.

(** * Properties of the factory *)

(** ** Tactics that run the methods *)

(** Runs an invocation up to the first promise whose settlement is not
    known. *)
Ltac run_method :=
  cbv [create destroy validate
       mbind Task_bind bind mret Task_ret try_catch step await debug
       run perform call settle record with_env env_new];
  cbn [this env log fst snd].

(** The same for the invariant of an invocation and for a turn of the loop. *)
Ltac run_invariant :=
  cbn [bind try_catch keeps_invariant perform call settle record with_env
       env_new fst snd this env log].

Ltac run_loop :=
  unfold create, debug, step, await, mbind, Task_bind, mret, Task_ret;
  cbn [turn advance park bind try_catch perform call settle record with_env
       env_new lookup list_lookup delete list_delete app
       factory in_flight results this env log fst snd].

Ltac step_creates := cbn [creates].
Ltac step_serve := cbn [serve].
Ltac step_serve_all := cbn [serve_all].
Ltac step_turn := cbn [turn].
Ltac step_turns := unfold turns; cbn [foldl].

Section Theory.

Context {Error Greeting TlsOptions Net : Type}.

Local Abbreviation Env := (@Env Error TlsOptions Net).
Local Abbreviation State := (@State Error Greeting TlsOptions Net).
Local Abbreviation Loop := (@Loop Error Greeting TlsOptions Net).
Local Abbreviation Options := (@Options Error Greeting TlsOptions Net).

Variable open_io : ConnRef → Env → @Outcome Error Greeting * Env.
Variable close_io : ConnRef → Env → @Outcome Error unit * Env.
Variable sleep_io : Z → Env → Env.

Local Abbreviation run := (run open_io close_io sleep_io).
Local Abbreviation creates := (creates open_io close_io sleep_io).
Local Abbreviation serve := (serve open_io close_io sleep_io).
Local Abbreviation serve_all := (serve_all open_io close_io sleep_io).
Local Abbreviation settle := (settle open_io close_io sleep_io).
Local Abbreviation turn := (turn open_io close_io sleep_io).
Local Abbreviation turns := (turns open_io close_io sleep_io).
Local Abbreviation keeps_invariant := (keeps_invariant open_io close_io sleep_io).
Local Abbreviation resumable := (resumable open_io close_io sleep_io).

(** ** One invocation of [create]

    The three ways it can go, with the state each one leaves. *)

Lemma create_open_rejected (s : State) (e : Error) (w : Env) :
  open_io (new_ref s) (env_at_open s) = (inl e, w) →
  run create s =
    (Rejected e,
     {| this := with_attempts (attempts (this s) + 1) (this s);
        env := sleep_io (200 * Z.min (attempts (this s) + 1) 20) w;
        log := log s ++
          [Debug "+1" [];
           New (new_ref s) (port (this s)) (host (this s)) (tlsOptions (this s));
           On (new_ref s) "error" (SinkListener (onConnectionError (this s)));
           Open (new_ref s);
           Opened (new_ref s) (inl e);
           Debug "connection failed: attempts=%i backoff=%ims"
             [attempts (this s) + 1; 200 * Z.min (attempts (this s) + 1) 20];
           Sleep (200 * Z.min (attempts (this s) + 1) 20);
           Slept (200 * Z.min (attempts (this s) + 1) 20)] |}).
Proof.
  unfold env_at_open, new_ref, env_new. cbn [fst snd]. intros Ho.
  run_method. rewrite Ho. cbn. by rewrite <- !app_assoc.
Qed.

Lemma create_handshake_rejected (s : State) g w (e : Error) w' :
  open_io (new_ref s) (env_at_open s) = (inr g, w) →
  handshake (this s) (new_ref s) g w = (inl e, w') →
  run create s =
    (Rejected e,
     {| this := with_attempts (attempts (this s) + 1) (this s);
        env := sleep_io (200 * Z.min (attempts (this s) + 1) 20) w';
        log := log s ++
          [Debug "+1" [];
           New (new_ref s) (port (this s)) (host (this s)) (tlsOptions (this s));
           On (new_ref s) "error" (SinkListener (onConnectionError (this s)));
           Open (new_ref s);
           Opened (new_ref s) (inr g);
           Handshake (new_ref s) g;
           Handshaken (new_ref s) g (inl e);
           Debug "connection failed: attempts=%i backoff=%ims"
             [attempts (this s) + 1; 200 * Z.min (attempts (this s) + 1) 20];
           Sleep (200 * Z.min (attempts (this s) + 1) 20);
           Slept (200 * Z.min (attempts (this s) + 1) 20)] |}).
Proof.
  unfold env_at_open, new_ref, env_new. cbn [fst snd]. intros Ho Hh.
  run_method. rewrite Ho. cbn. rewrite Hh. cbn. by rewrite <- !app_assoc.
Qed.

Lemma create_fulfilled (s : State) g w (id : string) w' :
  open_io (new_ref s) (env_at_open s) = (inr g, w) →
  handshake (this s) (new_ref s) g w = (inr id, w') →
  run create s =
    (Fulfilled (new_ref s),
     {| this := with_attempts 0 (this s);
        env := w';
        log := log s ++
          [Debug "+1" [];
           New (new_ref s) (port (this s)) (host (this s)) (tlsOptions (this s));
           On (new_ref s) "error" (SinkListener (onConnectionError (this s)));
           Open (new_ref s);
           Opened (new_ref s) (inr g);
           Handshake (new_ref s) g;
           Handshaken (new_ref s) g (inr id)] |}).
Proof.
  unfold env_at_open, new_ref, env_new. cbn [fst snd]. intros Ho Hh.
  run_method. rewrite Ho. cbn. rewrite Hh. cbn. by rewrite <- !app_assoc.
Qed.

(** Splits on how the [create()] started in [s] goes and rewrites
    [create s] accordingly. *)
Ltac create_cases s :=
  let e := fresh "e" in let g := fresh "g" in let w := fresh "w" in
  let id := fresh "id" in let w' := fresh "w'" in
  let Ho := fresh "Ho" in let Hh := fresh "Hh" in
  destruct (open_io (new_ref s) (env_at_open s)) as [[e|g] w] eqn:Ho;
  [ rewrite (create_open_rejected s e w Ho)
  | destruct (handshake (this s) (new_ref s) g w) as [[e|id] w'] eqn:Hh;
    [ rewrite (create_handshake_rejected s g w e w' Ho Hh)
    | rewrite (create_fulfilled s g w id w' Ho Hh) ] ].

Lemma since_app (s : State) (f : ConnectionFactory) (w : Env) evs :
  since s {| this := f; env := w; log := log s ++ evs |} = evs.
Proof. unfold since. cbn. by rewrite drop_app_length. Qed.

Lemma naps_app (evs1 evs2 : list (@Event Error Greeting TlsOptions)) :
  naps (evs1 ++ evs2) = naps evs1 ++ naps evs2.
Proof. apply omap_app. Qed.

Lemma slept_app (evs1 evs2 : list (@Event Error Greeting TlsOptions)) :
  slept (evs1 ++ evs2) = slept evs1 ++ slept evs2.
Proof. apply omap_app. Qed.

(** [n] failed invocations in a row take the counter from [a] to [a + n]
    and sleep once each, for the delays of the counters [a + 1 .. a + n]. *)
Lemma creates_all_rejected (n : nat) : ∀ (s : State) (a : nat),
  attempts (this s) = Z.of_nat a →
  Forall (λ r, is_rejected r) (creates n s).1 →
  attempts (this (creates n s).2) = Z.of_nat (a + n) ∧
  ∃ evs, log (creates n s).2 = log s ++ evs ∧
         naps evs = (λ k : nat, 200 * Z.min (Z.of_nat k) 20) <$> seq (S a) n ∧
         slept evs = naps evs.
Proof.
  induction n as [|n IH]; intros s a Ha.
  - intros _. cbn. split; [f_equal; lia|]. exists []. by rewrite app_nil_r.
  - step_creates. create_cases s.
    all: match goal with
         | |- context [creates ?m ?s1] =>
             specialize (IH s1 (S a)); destruct (creates m s1) as [rs s2]
         end.
    all: cbn [fst snd this log attempts with_attempts] in IH |- *.
    all: intros Hall; apply Forall_cons in Hall as [Hr Hall]; try done.
    all: destruct IH as [IH1 (evs & IH2 & IH3 & IH4)]; [lia|done|].
    all: split; [rewrite IH1; f_equal; lia|].
    all: eexists; split; [rewrite IH2, <- app_assoc; reflexivity|].
    all: rewrite naps_app, slept_app, IH4, IH3, Ha; cbn.
    all: split; [do 3 f_equal; lia|done].
Qed.

(** ** The event emitter *)

Lemma listeners_of_env_on (c : ConnRef) ev l (w : Env) :
  is_Some (heap w !! c) →
  listeners_of c (env_on c ev l w) = listeners_of c w ++ [(ev, l)].
Proof.
  intros [x Hx]. unfold listeners_of, env_on. cbn.
  by rewrite list_lookup_alter_eq, Hx.
Qed.

Lemma listeners_of_removeAllListeners (c c' : ConnRef) (w : Env) :
  listeners_of c (env_removeAllListeners c' w) =
    if decide (c' = c) then [] else listeners_of c w.
Proof.
  unfold listeners_of, env_removeAllListeners. cbn. case_decide as Hc.
  - subst c'. rewrite list_lookup_alter_eq. by destruct (heap w !! c).
  - by rewrite list_lookup_alter_ne.
Qed.

Lemma run_listener_keeps_none arg l (c : ConnRef) (w : Env) :
  listeners_of c w = [] → listeners_of c (run_listener arg l w) = [].
Proof.
  destruct l as [k|c']; cbn; [done|].
  rewrite listeners_of_removeAllListeners. by case_decide.
Qed.

(** Once the removal listener of [c] is among the listeners that run, [c]
    is left with no listener at all. *)
Lemma run_listeners_clear arg (c : ConnRef) (ls : list Listener) : ∀ w : Env,
  RemoveAllListenersOf c ∈ ls ∨ listeners_of c w = [] →
  listeners_of c (foldl (λ w' l, run_listener arg l w') w ls) = [].
Proof.
  induction ls as [|l ls IH]; intros w [Hin|Hnone]; cbn.
  - by apply elem_of_nil in Hin.
  - done.
  - apply IH. apply elem_of_cons in Hin as [<-|Hin]; [right|by left].
    cbn. rewrite listeners_of_removeAllListeners. by case_decide.
  - apply IH. right. by apply run_listener_keeps_none.
Qed.

Lemma env_at_open_listeners (s : State) :
  listeners_of (new_ref s) (env_at_open s) =
    [("error"%string, SinkListener (onConnectionError (this s)))].
Proof.
  unfold env_at_open, new_ref, listeners_of, env_on, env_new. cbn.
  rewrite list_lookup_alter_eq, lookup_app_r by lia.
  by rewrite Nat.sub_diag.
Qed.

(** ** [create] *)

(** C1: after N failed [create()] calls in a row, starting from a counter
    of 0, [attempts] is N and the delays slept, one before each rejection,
    were min(k, 20) * 200 for k = 1 .. N: 200, 400, ... up to 4000, which
    is the delay from the 20th failure on (the 21st waits 4000).  These are
    the delays [sleep] was called with. *)
Theorem backoff_ramp (N : nat) (s : State) :
  attempts (this s) = 0 →
  Forall (λ r, is_rejected r) (creates N s).1 →
  attempts (this (creates N s).2) = Z.of_nat N ∧
  slept (since s (creates N s).2) =
    (λ k : nat, Z.min (Z.of_nat k) 20 * 200) <$> seq 1 N ∧
  naps (since s (creates N s).2) = slept (since s (creates N s).2) ∧
  last (slept (since s (creates N s).2)) =
    match N with
    | O => None
    | S _ => Some (Z.min (Z.of_nat N) 20 * 200)
    end ∧
  ((20 ≤ N)%nat → last (slept (since s (creates N s).2)) = Some 4000).
Proof.
  intros Ha Hall.
  destruct (creates_all_rejected N s 0 Ha Hall) as [H1 (evs & H2 & H3 & H4)].
  assert (Hs : since s (creates N s).2 = evs).
  { unfold since. by rewrite H2, drop_app_length. }
  assert (Hn : slept (since s (creates N s).2) =
               (λ k : nat, Z.min (Z.of_nat k) 20 * 200) <$> seq 1 N).
  { rewrite Hs, H4, H3. apply list_fmap_ext. intros _ k _. lia. }
  assert (Hl : last (slept (since s (creates N s).2)) =
               match N with
               | O => None
               | S _ => Some (Z.min (Z.of_nat N) 20 * 200)
               end).
  { rewrite Hn. destruct N as [|n]; [done|].
    rewrite seq_S, fmap_app. cbn [fmap list_fmap].
    rewrite last_snoc. do 2 f_equal. }
  split; [done|]. split; [done|]. split; [by rewrite Hs, H4|]. split; [done|].
  intros HN. rewrite Hl. destruct N as [|n]; [lia|]. f_equal. lia.
Qed.

(** C2: [create()] hands back a connection only when [open()] was called on
    it and fulfilled with a greeting, and the injected handshake was called
    with that connection and that greeting and fulfilled as well; the
    connection handed back is the one this invocation constructed, and these
    calls are all the factory did. *)
Theorem create_returns_only_after_handshake (s : State) (c : ConnRef) (s' : State) :
  run create s = (Fulfilled c, s') →
  c = new_ref s ∧
  ∃ (g : Greeting) (w : Env) (id : string),
    open_io c (env_at_open s) = (inr g, w) ∧
    handshake (this s) c g w = (inr id, env s') ∧
    since s s' =
      [Debug "+1" [];
       New c (port (this s)) (host (this s)) (tlsOptions (this s));
       On c "error" (SinkListener (onConnectionError (this s)));
       Open c;
       Opened c (inr g);
       Handshake c g;
       Handshaken c g (inr id)].
Proof.
  create_cases s; intros [= <- <-].
  split; [done|]. exists g, w, id. by rewrite since_app.
Qed.

(** C3: after a successful [create()] the counter [attempts] is 0, whatever
    it was before. *)
Theorem create_success_resets_attempts (s : State) (c : ConnRef) (s' : State) :
  run create s = (Fulfilled c, s') →
  attempts (this s') = 0.
Proof. create_cases s; by intros [= <- <-]. Qed.

(** C4: [create()] rejects with [e] exactly when [open()] or the injected
    handshake threw [e]; when it rejects, [attempts] has been incremented
    and the last thing the factory did before rejecting was to sleep for
    the backoff delay computed from the incremented counter. *)
Theorem create_rejects_iff_thrown (s : State) (e : Error) :
  ((∃ s', run create s = (Rejected e, s')) ↔ thrown open_io s = Some e) ∧
  (∀ s', run create s = (Rejected e, s') →
     attempts (this s') = attempts (this s) + 1 ∧
     ∃ evs, since s s' =
              evs ++ [Sleep (200 * Z.min (attempts (this s')) 20);
                      Slept (200 * Z.min (attempts (this s')) 20)]).
Proof.
  unfold thrown, attempt. create_cases s; cbn [fst].
  - split; [split|].
    + by intros [s' [= ->]].
    + intros [= ->]. eauto.
    + intros s' [= -> <-]. cbn [this attempts with_attempts].
      split; [done|]. rewrite since_app. by eexists [_; _; _; _; _; _].
  - split; [split|].
    + by intros [s' [= ->]].
    + intros [= ->]. eauto.
    + intros s' [= -> <-]. cbn [this attempts with_attempts].
      split; [done|]. rewrite since_app. by eexists [_; _; _; _; _; _; _; _].
  - split; [split|].
    + by intros [s' [=]].
    + done.
    + by intros s' [=].
Qed.

(** C8: the first things [create()] does are, in this order: the trace
    line, the construction of the connection, the registration of the error
    sink as its ["error"] listener, and the call of [open()].  No I/O comes
    before the registration, so [open()] runs in a world where the sink is
    the connection's ["error"] listener: an error the connection signals
    there is delivered to the sink. *)
Theorem create_registers_sink_before_open (s : State) :
  (∃ rest,
     since s (run create s).2 =
       [Debug "+1" [];
        New (new_ref s) (port (this s)) (host (this s)) (tlsOptions (this s));
        On (new_ref s) "error" (SinkListener (onConnectionError (this s)));
        Open (new_ref s);
        Opened (new_ref s) (open_io (new_ref s) (env_at_open s)).1] ++ rest) ∧
  list_find (λ ev, is_io ev) (since s (run create s).2) =
    Some (3%nat, Open (new_ref s)) ∧
  listeners_for (new_ref s) "error" (env_at_open s) =
    [SinkListener (onConnectionError (this s))] ∧
  ∀ e : Error,
    reported (emit (new_ref s) "error" (Some e) (env_at_open s)) =
      reported (env s) ++ [(onConnectionError (this s), Some e)].
Proof.
  assert (Hl : listeners_for (new_ref s) "error" (env_at_open s) =
               [SinkListener (onConnectionError (this s))]).
  { unfold listeners_for. by rewrite env_at_open_listeners. }
  split; [|split; [|split; [done|]]].
  - create_cases s; cbn [fst snd]; rewrite since_app; by eexists.
  - create_cases s; cbn [fst snd]; by rewrite since_app.
  - intros e. unfold emit. by rewrite Hl.
Qed.

(** C9: when [create()] rejects, the factory has not called [close()]; the
    world is the one the failed [open()] or handshake left, with only the
    backoff sleep on top. *)
Theorem create_failure_does_not_close (s : State) (e : Error) (s' : State) :
  run create s = (Rejected e, s') →
  closes (since s s') = [] ∧
  (∀ c, Close c ∉ since s s') ∧
  env s' =
    sleep_io (200 * Z.min (attempts (this s')) 20) (attempt open_io s).2.
Proof.
  unfold attempt. create_cases s; intros [= -> <-]; rewrite since_app.
  all: cbn [env this attempts with_attempts snd].
  all: repeat split; try done.
  all: intros c Hin; repeat (apply elem_of_cons in Hin as [[=]|Hin]).
  all: by apply elem_of_nil in Hin.
Qed.

(** ** [validate] *)

(** C5: [validate(c)] fulfils with the [connected] flag of [c] as it is,
    and leaves the factory, the world (every connection included) and the
    list of the factory's actions exactly as they were. *)
Theorem validate_reads_connected (s : State) (c : ConnRef) (x : Connection) :
  heap (env s) !! c = Some x →
  run (validate c) s = (Fulfilled (connected x), s).
Proof.
  intros Hx. run_method. unfold env_connected. by rewrite Hx.
Qed.

(** ** [destroy] *)

(** C6: [destroy(c)] registers the removal of all listeners of [c] as a
    ["close"] listener of [c], then calls [close()] on [c], once, and
    settles the way [close()] settles, rejecting only if [close()] does.
    In the world in which [close()] is called, a ["close"] notification
    leaves [c] without any listener. *)
Theorem destroy_closes_once (s : State) (c : ConnRef) :
  is_Some (heap (env s) !! c) →
  run (destroy c) s =
    (settled_as (close_io c (env_at_close c s)).1,
     {| this := this s;
        env := (close_io c (env_at_close c s)).2;
        log := log s ++
          [Debug "-1" [];
           On c "close" (RemoveAllListenersOf c);
           Close c;
           Closed c (close_io c (env_at_close c s)).1] |}) ∧
  closes (since s (run (destroy c) s).2) = [c] ∧
  (∀ e, (run (destroy c) s).1 = Rejected e ↔ (close_io c (env_at_close c s)).1 = inl e) ∧
  RemoveAllListenersOf c ∈ listeners_for c "close" (env_at_close c s) ∧
  listeners_of c (emit c "close" None (env_at_close c s)) = [].
Proof.
  intros Hc.
  assert (Hd : run (destroy c) s =
    (settled_as (close_io c (env_at_close c s)).1,
     {| this := this s;
        env := (close_io c (env_at_close c s)).2;
        log := log s ++
          [Debug "-1" [];
           On c "close" (RemoveAllListenersOf c);
           Close c;
           Closed c (close_io c (env_at_close c s)).1] |})).
  { unfold env_at_close. run_method.
    destruct (close_io c _) as [[e|[]] w]; cbn; by rewrite <- !app_assoc. }
  assert (Hin : RemoveAllListenersOf c ∈ listeners_for c "close" (env_at_close c s)).
  { unfold listeners_for, env_at_close. rewrite listeners_of_env_on by done.
    rewrite filter_app, fmap_app. apply elem_of_app. right.
    rewrite filter_cons_True by done. cbn. apply list_elem_of_here. }
  split; [done|]. rewrite Hd.
  destruct (close_io c (env_at_close c s)) as [[e|[]] w]; cbn [fst snd settled_as].
  all: rewrite since_app.
  all: repeat split; try done; try by intros [= ->].
  all: unfold emit; apply run_listeners_clear; by left.
Qed.

(** ** The factory's fields across calls *)

Lemma with_attempts_same (f : @ConnectionFactory Error Greeting TlsOptions Net) :
  with_attempts (attempts f) f = f.
Proof. by destruct f. Qed.

Lemma destroy_this (c : ConnRef) (s : State) :
  this (run (destroy c) s).2 = this s.
Proof. run_method. by destruct (close_io c _) as [[e|[]] w]. Qed.

Lemma validate_state (c : ConnRef) (s : State) :
  (run (validate c) s).2 = s.
Proof. by run_method. Qed.

(** What one call does to the counter, by the way it settled. *)
Lemma serve_attempts (call : Call) (s : State) :
  attempts (this (serve call s).2) =
    match (serve call s).1 with
    | Created (Rejected _) => attempts (this s) + 1
    | Created (Fulfilled _) => 0
    | Destroyed _ | Validated _ => attempts (this s)
    end.
Proof.
  destruct call as [|c|c]; step_serve.
  - by create_cases s.
  - pose proof (destroy_this c s) as Hd.
    destruct (run (destroy c) s) as [r s']. cbn in Hd |- *. by rewrite Hd.
  - pose proof (validate_state c s) as Hv.
    destruct (run (validate c) s) as [r s']. cbn in Hv |- *. by rewrite Hv.
Qed.

Lemma serve_all_attempts (calls : list Call) : ∀ (s : State) (before : list Reply),
  attempts (this s) = Z.of_nat (consecutive_failures before) →
  attempts (this (serve_all calls s).2) =
    Z.of_nat (consecutive_failures (before ++ (serve_all calls s).1)).
Proof.
  unfold consecutive_failures.
  induction calls as [|call calls IH]; intros s before Hs.
  - cbn. by rewrite app_nil_r.
  - step_serve_all.
    pose proof (serve_attempts call s) as Hstep.
    destruct (serve call s) as [r s1]. cbn [fst snd] in Hstep.
    specialize (IH s1 (before ++ [r])).
    destruct (serve_all calls s1) as [rs s2]. cbn [fst snd] in IH |- *.
    rewrite <- app_assoc in IH. apply IH.
    rewrite reverse_snoc, Hstep, Hs.
    destruct r as [[c|e]|r|r]; cbn [failures_at_end]; lia.
Qed.

(** C10: whichever of [create], [destroy] and [validate] the pool calls,
    the fields [host], [port], [tlsOptions], [handshake] and
    [onConnectionError] of the factory are afterwards what they were: the
    factory differs from the one before at most in [attempts]. *)
Theorem calls_change_only_attempts (call : Call) (s : State) :
  host (this (serve call s).2) = host (this s) ∧
  port (this (serve call s).2) = port (this s) ∧
  tlsOptions (this (serve call s).2) = tlsOptions (this s) ∧
  handshake (this (serve call s).2) = handshake (this s) ∧
  onConnectionError (this (serve call s).2) = onConnectionError (this s) ∧
  this (serve call s).2 =
    with_attempts (attempts (this (serve call s).2)) (this s).
Proof.
  assert (H : ∃ n, this (serve call s).2 = with_attempts n (this s)).
  { destruct call as [|c|c]; step_serve.
    - create_cases s; by eexists.
    - pose proof (destroy_this c s) as Hd.
      destruct (run (destroy c) s) as [r s']. cbn in Hd |- *.
      exists (attempts (this s)). by rewrite Hd, with_attempts_same.
    - pose proof (validate_state c s) as Hv.
      destruct (run (validate c) s) as [r s']. cbn in Hv |- *.
      exists (attempts (this s)). by rewrite Hv, with_attempts_same. }
  destruct H as [n ->]. by destruct (this s).
Qed.

(** ** Invocations in flight *)

(** One uninterrupted invocation is the schedule in which its promises
    settle before anything else happens. *)
Lemma run_advance {R} (t : Task R) (s : State) :
  run t s =
    match advance t s with
    | (Return v, s') => (Fulfilled v, s')
    | (Throw e, s') => (Rejected e, s')
    | (Await p k, s') => let '(r, s'') := settle p s' in run (k r) s''
    | (Do a k, s') => run (Do a k) s'
    end.
Proof.
  revert s. induction t as [v|e|X a k IH|X p k IH]; intros s; cbn; try done.
  destruct (perform a s) as [x s']. apply IH.
Qed.

Lemma failures_in_a_row_app (evs1 evs2 : list (@Event Error Greeting TlsOptions)) :
  failures_in_a_row (evs1 ++ evs2) =
    foldl count_failure (failures_in_a_row evs1) evs2.
Proof. apply foldl_app. Qed.

Lemma ranks_from_app (evs1 evs2 : list (@Event Error Greeting TlsOptions)) : ∀ n,
  ranks_from n (evs1 ++ evs2) =
    ranks_from n evs1 ++ ranks_from (foldl count_failure n evs1) evs2.
Proof.
  induction evs1 as [|ev evs1 IH]; intros n; cbn; [done|].
  by rewrite IH, app_assoc.
Qed.

(** The invariant after some more events and a new value of the counter. *)
Lemma backoff_invariant_extend (s : State) f (w : Env) evs :
  backoff_invariant s →
  attempts f = Z.of_nat (foldl count_failure (failures_in_a_row (log s)) evs) →
  naps evs =
    (λ k : nat, 200 * Z.min (Z.of_nat k) 20) <$>
      ranks_from (failures_in_a_row (log s)) evs →
  backoff_invariant {| this := f; env := w; log := log s ++ evs |}.
Proof.
  intros [Ha Hn] Hf Hevs. split; cbn [this log].
  - by rewrite failures_in_a_row_app.
  - unfold failure_ranks. rewrite naps_app, ranks_from_app, fmap_app.
    by rewrite Hn, Hevs.
Qed.

Ltac close_invariant H :=
  unfold record, with_env; cbn [this env log];
  rewrite <- ?app_assoc; cbn [app];
  apply backoff_invariant_extend;
  [ exact H
  | destruct H as [H _]; cbn; lia
  | destruct H as [H _]; cbn; rewrite ?H; repeat f_equal; lia ].

(** [create] keeps the invariant across its suspensions, whatever the other
    invocations did to the counter meanwhile: the [catch] block reads the
    counter, adds 1 and calls [sleep] without being suspended in between. *)
Lemma create_keeps_invariant (s : State) :
  backoff_invariant s → keeps_invariant create s.
Proof.
  intros Hs.
  unfold create, debug, step, await, mbind, Task_bind, mret, Task_ret.
  run_invariant. split; [close_invariant Hs|].
  intros s1 Hs1.
  destruct (open_io _ (env s1)) as [[e|g] w]; run_invariant.
  - split; [close_invariant Hs1|]. intros s2 Hs2. close_invariant Hs2.
  - split; [close_invariant Hs1|]. intros s2 Hs2.
    destruct (handshake (this s1) _ g (env s2)) as [[e|id] w2]; run_invariant.
    + split; [close_invariant Hs2|]. intros s3 Hs3. close_invariant Hs3.
    + split; [close_invariant Hs2|done].
Qed.

Lemma advance_keeps_invariant {R} (t : Task R) : ∀ s : State,
  keeps_invariant t s →
  backoff_invariant (advance t s).2 ∧
  resumable (advance t s).1 ∧
  returned_with_reset (advance t s).1 (advance t s).2.
Proof.
  induction t as [v|e|X a k IH|X p k IH]; intros s Ht; cbn in *.
  - by destruct Ht.
  - done.
  - destruct (perform a s) as [x s']. by apply IH.
  - by destruct Ht.
Qed.

Lemma park_keeps_invariant (t : Task nat) (s : State) waiting done :
  backoff_invariant s → resumable t → Forall resumable waiting →
  backoff_invariant (factory (park t s waiting done)) ∧
  Forall resumable (in_flight (park t s waiting done)).
Proof.
  intros Hs Ht Hw. destruct t; cbn; split; try done.
  all: apply Forall_app; split; [done|]; by apply Forall_singleton.
Qed.

Lemma park_fulfilled (t : Task nat) (s : State) waiting done c :
  returned_with_reset t s →
  results (park t s waiting done) = done ++ [Fulfilled c] →
  attempts (this (factory (park t s waiting done))) = 0.
Proof.
  intros Ht. destruct t as [v|e|X a k|X p k]; cbn; [done|..].
  - by intros [_ [=]]%app_inj_tail.
  - intros Heq. apply (f_equal length) in Heq.
    rewrite length_app in Heq. cbn in Heq. lia.
  - intros Heq. apply (f_equal length) in Heq.
    rewrite length_app in Heq. cbn in Heq. lia.
Qed.

Lemma results_unchanged (L : Loop) r :
  results L = results L ++ [r] → False.
Proof.
  intros Heq. apply (f_equal length) in Heq.
  rewrite length_app in Heq. cbn in Heq. lia.
Qed.

(** One turn of the loop, with what it establishes. *)
Lemma turn_keeps_invariant (L : Loop) (τ : Turn) :
  backoff_invariant (factory L) → Forall resumable (in_flight L) →
  backoff_invariant (factory (turn L τ)) ∧
  Forall resumable (in_flight (turn L τ)) ∧
  ∀ c, results (turn L τ) = results L ++ [Fulfilled c] →
       attempts (this (factory (turn L τ))) = 0.
Proof.
  intros HL Hw. destruct τ as [|i]; step_turn.
  - pose proof (advance_keeps_invariant create (factory L)
                  (create_keeps_invariant _ HL)) as (H1 & H2 & H3).
    destruct (advance create (factory L)) as [t s] eqn:Ea.
    cbn [fst snd] in H1, H2, H3.
    destruct (park_keeps_invariant t s (in_flight L) (results L)) as [? ?];
      [done..|].
    split; [done|]. split; [done|]. intros c. by apply park_fulfilled.
  - destruct (in_flight L !! i) as [t|] eqn:Hi;
      [|by split; [|split; [|intros c ?%results_unchanged]]].
    destruct t as [v|e|X a k|X p k];
      try by split; [|split; [|intros c ?%results_unchanged]].
    pose proof (Forall_lookup_1 _ _ _ _ Hw Hi) as Hr. cbn in Hr.
    specialize (Hr _ HL).
    destruct (settle p (factory L)) as [r s1] eqn:Es. cbn [fst snd] in Hr.
    apply advance_keeps_invariant in Hr as (H1 & H2 & H3).
    destruct (advance (k r) s1) as [t s2] eqn:Ea. cbn [fst snd] in H1, H2, H3.
    destruct (park_keeps_invariant t s2 (delete i (in_flight L)) (results L))
      as [? ?]; [done|done|by apply Forall_delete|].
    split; [done|]. split; [done|]. intros c. by apply park_fulfilled.
Qed.

Lemma turns_keep_invariant (τs : list Turn) : ∀ L : Loop,
  backoff_invariant (factory L) → Forall resumable (in_flight L) →
  backoff_invariant (factory (turns τs L)) ∧
  Forall resumable (in_flight (turns τs L)).
Proof.
  induction τs as [|τ τs IH]; intros L HL Hw; [done|].
  destruct (turn_keeps_invariant L τ HL Hw) as (H1 & H2 & _).
  by apply IH.
Qed.

Lemma initial_invariant (o : Options) (w : Env) :
  backoff_invariant (initial o w).
Proof. done. Qed.

(** However the invocations of [create()] in flight interleave, whenever
    none of them is running the counter is the number of failures in a row
    (by the time the rejection reaches the [catch] block), and every failure
    has called [sleep] with the delay 200 * min(k, 20) of its rank [k] in its
    series of failures. *)
Theorem backoff_in_flight (o : Options) (w : Env) (τs : list Turn) :
  backoff_invariant (factory (turns τs (idle o w))).
Proof.
  apply turns_keep_invariant; [apply initial_invariant|apply Forall_nil_2].
Qed.

(** However the invocations in flight interleave, at the moment one of them
    fulfils the counter is 0. *)
Theorem fulfilment_in_flight_resets
    (o : Options) (w : Env) (τs : list Turn) (τ : Turn) (c : nat) :
  results (turn (turns τs (idle o w)) τ) =
    results (turns τs (idle o w)) ++ [Fulfilled c] →
  attempts (this (factory (turn (turns τs (idle o w)) τ))) = 0.
Proof.
  pose proof (turns_keep_invariant τs (idle o w)
                (initial_invariant o w) (Forall_nil_2 _)) as [H1 H2].
  destruct (turn_keeps_invariant _ τ H1 H2) as (_ & _ & H). apply H.
Qed.

(** Takes the innermost turn of the goal, using [tac] to settle the promise. *)
Ltac take_turn tac :=
  match goal with
  | |- context [turn (mkLoop ?s ?fl ?rs) ?τ] =>
      let H := fresh in
      eassert (H : turn (mkLoop s fl rs) τ = _)
        by (run_loop; tac; run_loop; reflexivity);
      rewrite H; clear H
  end.

(** An invocation alone in the loop, resumed as soon as it is suspended, is
    [run]. *)
Theorem solo_create_is_run (s : State) (rs : list (Settled nat)) :
  turns [Invoke; Resume 0; Resume 0; Resume 0]
    {| factory := s; in_flight := []; results := rs |} =
  {| factory := (run create s).2;
     in_flight := [];
     results := rs ++ [(run create s).1] |}.
Proof.
  create_cases s; cbn [fst snd].
  all: unfold env_at_open, new_ref, env_new in *; cbn [fst snd] in *.
  all: step_turns.
  all: do 4 take_turn ltac:(rewrite ?Ho, ?Hh).
  all: unfold record, with_env; cbn [this env log attempts with_attempts].
  all: by rewrite <- !app_assoc.
Qed.

(** ** The counter *)

(** C7: [attempts] is 0 when the factory is constructed, and after any
    series of calls of the pool it is the number of [create()] calls that
    failed since the last one that succeeded (or since construction), so it
    is never negative.  Each failed [create()] adds exactly 1 and sleeps
    once, for a delay that is a function of the counter alone; each
    successful one sets it to 0 and does not sleep; [destroy] and
    [validate] leave it alone.  When invocations of [create()] overlap, the
    counter is still the number of failures in a row, taken in the order in
    which the rejections are caught, and the delays are those of the ranks
    of the failures. *)
Theorem attempts_counts_consecutive_failures
    (o : Options) (w : Env) (calls : list Call) (τs : list Turn) :
  attempts (constructor o) = 0 ∧
  attempts (this (serve_all calls (initial o w)).2) =
    Z.of_nat (consecutive_failures (serve_all calls (initial o w)).1) ∧
  0 ≤ attempts (this (serve_all calls (initial o w)).2) ∧
  (∀ s : State,
     attempts (this (run create s).2) =
       (if is_rejected (run create s).1 then attempts (this s) + 1 else 0) ∧
     naps (since s (run create s).2) =
       (if is_rejected (run create s).1
        then [200 * Z.min (attempts (this (run create s).2)) 20]
        else []) ∧
     slept (since s (run create s).2) = naps (since s (run create s).2)) ∧
  (∀ (c : ConnRef) (s : State),
     attempts (this (run (destroy c) s).2) = attempts (this s) ∧
     attempts (this (run (validate c) s).2) = attempts (this s)) ∧
  backoff_invariant (factory (turns τs (idle o w))).
Proof.
  pose proof (serve_all_attempts calls (initial o w) [] eq_refl) as Hall.
  cbn [app] in Hall.
  split; [done|]. split; [done|]. split; [lia|]. split; [|split].
  - intros s. create_cases s; cbn [fst snd is_rejected]; by rewrite since_app.
  - intros c s. by rewrite destroy_this, validate_state.
  - apply turns_keep_invariant; [apply initial_invariant|apply Forall_nil_2].
Qed.

(** ** Calls in series *)

(** [destroy], unfolded. *)
Lemma destroy_run (c : ConnRef) (s : State) :
  run (destroy c) s =
    (settled_as (close_io c (env_at_close c s)).1,
     {| this := this s;
        env := (close_io c (env_at_close c s)).2;
        log := log s ++
          [Debug "-1" [];
           On c "close" (RemoveAllListenersOf c);
           Close c;
           Closed c (close_io c (env_at_close c s)).1] |}).
Proof.
  unfold env_at_close. run_method.
  destruct (close_io c _) as [[e|[]] w]; cbn; by rewrite <- !app_assoc.
Qed.

Lemma serve_all_cons (call : Call) (calls : list Call) (s : State) :
  serve_all (call :: calls) s =
    ((serve call s).1 :: (serve_all calls (serve call s).2).1,
     (serve_all calls (serve call s).2).2).
Proof.
  step_serve_all. destruct (serve call s) as [r s1]. cbn [fst snd].
  by destruct (serve_all calls s1) as [rs s2].
Qed.

(** Each call only adds to the log. *)
Lemma serve_log (call : Call) (s : State) :
  log (serve call s).2 = log s ++ since s (serve call s).2.
Proof.
  destruct call as [|c|c]; step_serve.
  - by create_cases s; cbn [fst snd]; rewrite since_app.
  - rewrite destroy_run. cbn [fst snd]. by rewrite since_app.
  - pose proof (validate_state c s) as Hv.
    destruct (run (validate c) s) as [r s']. cbn [fst snd] in *. subst s'.
    unfold since. by rewrite drop_all, app_nil_r.
Qed.

Lemma since_compose (s s1 s2 : State) :
  log s1 = log s ++ since s s1 → log s2 = log s1 ++ since s1 s2 →
  log s2 = log s ++ since s s2 ∧ since s s2 = since s s1 ++ since s1 s2.
Proof.
  intros H1 H2. assert (H : since s s2 = since s s1 ++ since s1 s2).
  { unfold since at 1. by rewrite H2, H1, <- app_assoc, drop_app_length. }
  split; [|done]. by rewrite H, app_assoc, <- H1.
Qed.

Lemma serve_all_log (calls : list Call) : ∀ s : State,
  log (serve_all calls s).2 = log s ++ since s (serve_all calls s).2.
Proof.
  induction calls as [|call calls IH]; intros s.
  - cbn. unfold since. by rewrite drop_all, app_nil_r.
  - rewrite serve_all_cons. cbn [snd].
    by destruct (since_compose s _ _ (serve_log call s) (IH (serve call s).2)).
Qed.

Lemma since_serve_all_cons (call : Call) (calls : list Call) (s : State) :
  since s (serve_all (call :: calls) s).2 =
    since s (serve call s).2 ++
    since (serve call s).2 (serve_all calls (serve call s).2).2.
Proof.
  rewrite serve_all_cons. cbn [snd].
  by destruct (since_compose s _ _ (serve_log call s)
                 (serve_all_log calls (serve call s).2)).
Qed.

(** A property of the state that every call keeps, and a property of the
    events that every call from such a state establishes and that
    concatenation keeps, hold for every series of calls. *)
Lemma serve_all_ind (I : State → Prop) (Q : list Event → Prop) :
  Q [] →
  (∀ evs1 evs2, Q evs1 → Q evs2 → Q (evs1 ++ evs2)) →
  (∀ call s, I s → I (serve call s).2 ∧ Q (since s (serve call s).2)) →
  ∀ calls s, I s →
    I (serve_all calls s).2 ∧ Q (since s (serve_all calls s).2).
Proof.
  intros Hnil Happ Hstep. induction calls as [|call calls IH]; intros s Hs.
  - cbn. unfold since. by rewrite drop_all.
  - destruct (Hstep call s Hs) as [H1 H2].
    destruct (IH _ H1) as [H3 H4].
    rewrite since_serve_all_cons, serve_all_cons. cbn [snd]. auto.
Qed.

Lemma since_same (s : State) : since s s = [].
Proof. unfold since. by rewrite drop_all. Qed.

Lemma serve_validate (c : ConnRef) (s : State) :
  (serve (CallValidate c) s).2 = s ∧
  is_validated (serve (CallValidate c) s).1 = true.
Proof.
  step_serve. pose proof (validate_state c s) as Hv.
  by destruct (run (validate c) s) as [r s'].
Qed.

(** X1: the calls of [validate] can be left out of any series of calls: the
    factory, the world and the log end up the same, and the other calls get
    the same replies. *)
Theorem validate_calls_are_transparent (calls : list Call) (s : State) :
  (serve_all (filter (λ call, is_validate call = false) calls) s).2 =
    (serve_all calls s).2 ∧
  (serve_all (filter (λ call, is_validate call = false) calls) s).1 =
    filter (λ reply, is_validated reply = false) (serve_all calls s).1.
Proof.
  revert s. induction calls as [|call calls IH]; intros s; [done|].
  rewrite (serve_all_cons call calls). cbn [fst snd].
  destruct call as [|c|c].
  - rewrite filter_cons_True by done. rewrite serve_all_cons. cbn [fst snd].
    destruct (IH (serve CallCreate s).2) as [-> ->].
    split; [done|]. rewrite filter_cons_True; [done|].
    step_serve. by destruct (run create s).
  - rewrite filter_cons_True by done. rewrite serve_all_cons. cbn [fst snd].
    destruct (IH (serve (CallDestroy c) s).2) as [-> ->].
    split; [done|]. rewrite filter_cons_True; [done|].
    step_serve. by destruct (run (destroy c) s).
  - rewrite filter_cons_False by done.
    destruct (serve_validate c s) as [Hs Hr]. rewrite Hs.
    destruct (IH s) as [-> ->]. split; [done|].
    rewrite filter_cons_False; [done|]. by rewrite Hr.
Qed.

(** X2: in any series of calls, [close()] is called on exactly the
    connections the pool asked to destroy, once per call of [destroy] and in
    that order; [open()] is called on exactly the connections constructed;
    one connection is constructed, and one ["+1"] line traced, per call of
    [create], failed or not; one ["-1"] line is traced per call of
    [destroy]. *)
Theorem pool_calls_in_the_events (calls : list Call) (s : State) :
  closes (since s (serve_all calls s).2) = destroyed calls ∧
  opens (since s (serve_all calls s).2) =
    constructed (since s (serve_all calls s).2) ∧
  length (constructed (since s (serve_all calls s).2)) =
    length (filter (λ call, is_create call) calls) ∧
  traced "+1" (since s (serve_all calls s).2) =
    replicate (length (filter (λ call, is_create call) calls)) [] ∧
  traced "-1" (since s (serve_all calls s).2) =
    replicate (length (destroyed calls)) [].
Proof.
  revert s. induction calls as [|call calls IH]; intros s.
  - cbn. by rewrite since_same.
  - rewrite since_serve_all_cons. unfold closes, opens, constructed, traced.
    rewrite !omap_app.
    destruct (IH (serve call s).2) as (IH1 & IH2 & IH3 & IH4 & IH5).
    unfold closes, opens, constructed, traced in IH1, IH2, IH3, IH4, IH5.
    rewrite IH1, IH2, IH4, IH5, length_app, IH3.
    destruct call as [|c|c]; step_serve.
    + rewrite filter_cons_True by done.
      by create_cases s; cbn [fst snd]; rewrite since_app.
    + rewrite filter_cons_False by (cbn; tauto).
      rewrite destroy_run. cbn [fst snd]. by rewrite since_app.
    + rewrite filter_cons_False by (cbn; tauto).
      pose proof (validate_state c s) as Hv.
      destruct (run (validate c) s) as [r s']. cbn [fst snd] in *. subst s'.
      by rewrite since_same.
Qed.

(** ** The backoff, from any value of the counter *)

(** [n] failed invocations in a row from any counter: each adds 1 and
    sleeps once, for the delay of the counter it leaves. *)
Lemma creates_all_rejected_from (n : nat) : ∀ s : State,
  Forall (λ r, is_rejected r) (creates n s).1 →
  attempts (this (creates n s).2) = attempts (this s) + Z.of_nat n ∧
  ∃ evs, log (creates n s).2 = log s ++ evs ∧
         slept evs =
           (λ k : nat, 200 * Z.min (attempts (this s) + Z.of_nat k) 20) <$>
             seq 1 n ∧
         naps evs = slept evs.
Proof.
  induction n as [|n IH]; intros s.
  - intros _. cbn. split; [lia|]. exists []. by rewrite app_nil_r.
  - step_creates. create_cases s.
    all: match goal with
         | |- context [creates ?m ?s1] =>
             specialize (IH s1); destruct (creates m s1) as [rs s2]
         end.
    all: cbn [fst snd this log attempts with_attempts] in IH |- *.
    all: intros Hall; apply Forall_cons in Hall as [Hr Hall]; try done.
    all: destruct IH as [IH1 (evs & IH2 & IH3 & IH4)]; [done|].
    all: split; [rewrite IH1; lia|].
    all: eexists; split; [rewrite IH2, <- app_assoc; reflexivity|].
    all: rewrite naps_app, slept_app, IH4, IH3; cbn [naps slept omap app].
    all: split; [|done].
    all: cbn [seq fmap list_fmap].
    all: rewrite <- (fmap_S_seq 1), <- list_fmap_compose.
    all: cbn; f_equal; apply list_fmap_ext; intros _ k _; cbn.
    all: do 2 f_equal; lia.
Qed.

Lemma total_snoc (delays : list Z) (ms : Z) :
  total (delays ++ [ms]) = total delays + ms.
Proof.
  unfold total. induction delays as [|d delays IH]; cbn; [lia|].
  rewrite IH. lia.
Qed.

Lemma total_ramp (n : nat) :
  total ((λ k : nat, 200 * Z.min (Z.of_nat k) 20) <$> seq 1 n) =
    ramp_total (Z.of_nat n).
Proof.
  induction n as [|n IH]; [done|].
  rewrite seq_S, fmap_app. cbn [fmap list_fmap].
  rewrite total_snoc, IH. unfold ramp_total.
  destruct (Z.leb_spec (Z.of_nat n) 20), (Z.leb_spec (Z.of_nat (S n)) 20); nia.
Qed.

(** X3: after N failed [create()] calls in a row from a counter of 0, the
    time slept in total is 100 * N * (N + 1) when N is at most 20, and
    42000 + 4000 * (N - 20) beyond. *)
Theorem total_backoff (N : nat) (s : State) :
  attempts (this s) = 0 →
  Forall (λ r, is_rejected r) (creates N s).1 →
  total (slept (since s (creates N s).2)) = ramp_total (Z.of_nat N).
Proof.
  intros Ha Hall.
  destruct (creates_all_rejected N s 0 Ha Hall) as [_ (evs & H2 & H3 & H4)].
  unfold since. rewrite H2, drop_app_length, H4, H3. apply total_ramp.
Qed.

(** X4: along failed [create()] calls in a row, whatever the counter was
    at first, the delay never shrinks from one failure to the next, and
    grows by 200 at most. *)
Theorem backoff_never_shrinks (N : nat) (s : State) (i : nat) (ms ms' : Z) :
  Forall (λ r, is_rejected r) (creates N s).1 →
  slept (since s (creates N s).2) !! i = Some ms →
  slept (since s (creates N s).2) !! S i = Some ms' →
  ms ≤ ms' ≤ ms + 200.
Proof.
  intros Hall.
  destruct (creates_all_rejected_from N s Hall) as [_ (evs & H2 & H3 & _)].
  unfold since. rewrite H2, drop_app_length, H3, !list_lookup_fmap.
  intros Hi Hi'.
  destruct (seq 1 N !! i) as [k|] eqn:Hk; [|done].
  destruct (seq 1 N !! S i) as [k'|] eqn:Hk'; [|done].
  apply lookup_seq in Hk as [-> _]. apply lookup_seq in Hk' as [-> _].
  cbn in Hi, Hi'. injection Hi as <-. injection Hi' as <-. lia.
Qed.


(** X6: the first failure after a success waits 200, however many failures
    came before the success. *)
Theorem first_failure_after_success_waits_200
    (s : State) (c : ConnRef) (s1 : State) (e : Error) (s2 : State) :
  run create s = (Fulfilled c, s1) →
  run create s1 = (Rejected e, s2) →
  slept (since s1 s2) = [200] ∧ attempts (this s2) = 1.
Proof.
  create_cases s; intros [= <- <-].
  match goal with |- run create ?s1 = _ → _ => create_cases s1 end.
  all: intros [= -> <-]; rewrite since_app; by cbn.
Qed.


(** X8: in any series of calls made from a counter that is not negative,
    every delay slept is a multiple of 200 between 200 and 4000, and the
    counter stays non-negative. *)
Theorem delays_within_bounds (calls : list Call) (s : State) :
  0 ≤ attempts (this s) →
  Forall within_bounds (slept (since s (serve_all calls s).2)) ∧
  0 ≤ attempts (this (serve_all calls s).2).
Proof.
  intros Hs.
  destruct (serve_all_ind (λ s, 0 ≤ attempts (this s))
              (λ evs, Forall within_bounds (slept evs))) with calls s
    as [H1 H2]; try done.
  - intros evs1 evs2 H1 H2. rewrite slept_app. by apply Forall_app.
  - intros call s0 Hs0. destruct call as [|c|c]; step_serve.
    + create_cases s0; cbn [fst snd]; rewrite since_app.
      all: cbn [this attempts with_attempts slept omap].
      all: split; [lia|]; repeat constructor; try lia.
      all: apply Z.divide_factor_l.
    + rewrite destroy_run. cbn [fst snd]. rewrite since_app. by cbn.
    + pose proof (validate_state c s0) as Hv.
      destruct (run (validate c) s0) as [r s']. cbn [fst snd] in *. subst s'.
      by rewrite since_same.
Qed.

Lemma ranks_positive (evs : list (@Event Error Greeting TlsOptions)) : ∀ n,
  Forall (λ k, (1 ≤ k)%nat) (ranks_from n evs).
Proof.
  induction evs as [|ev evs IH]; intros n; cbn; [done|].
  apply Forall_app. split; [|apply IH].
  destruct ev as [| | | |c [e|g]| |c g [e|id]| | | |]; cbn; try done.
  all: apply Forall_singleton; lia.
Qed.

(** X9: however the invocations of [create()] in flight interleave, from
    the construction of the factory on, every delay [sleep] is called with
    is a multiple of 200 between 200 and 4000. *)
Theorem delays_within_bounds_in_flight (o : Options) (w : Env) (τs : list Turn) :
  Forall within_bounds (naps (log (factory (turns τs (idle o w))))).
Proof.
  destruct (turns_keep_invariant τs (idle o w)
              (initial_invariant o w) (Forall_nil_2 _)) as [[_ ->] _].
  apply Forall_fmap. eapply Forall_impl; [apply ranks_positive|].
  intros k Hk. unfold compose, within_bounds. cbn beta in Hk.
  split; [lia|]. apply Z.divide_factor_l.
Qed.

(** X10: [create()] calls the handshake only after [open()] fulfilled: not
    at all when [open()] rejects, and otherwise once, with the connection it
    constructed and the greeting [open()] fulfilled with. *)
Theorem handshake_only_after_open (s : State) :
  handshakes (since s (run create s).2) =
    match (open_io (new_ref s) (env_at_open s)).1 with
    | inl _ => []
    | inr g => [(new_ref s, g)]
    end.
Proof. by create_cases s; cbn [fst snd]; rewrite since_app. Qed.

(** X11: whatever calls the pool has made since the factory was
    constructed from [o], every connection constructed so far has the port,
    host and TLS options of [o], every error sink registered is the default
    one, and the factory still holds the configuration of [o]. *)
Theorem configuration_is_kept (o : Options) (w : Env) (calls : list Call) :
  Forall (configured_by o) (log (serve_all calls (initial o w)).2) ∧
  ∃ n, this (serve_all calls (initial o w)).2 = with_attempts n (constructor o).
Proof.
  assert (Hstep : ∀ call s0,
    (∃ n, this s0 = with_attempts n (constructor o)) →
    (∃ n, this (serve call s0).2 = with_attempts n (constructor o)) ∧
    Forall (configured_by o) (since s0 (serve call s0).2)).
  { intros call s0 [n Hs0]. destruct call as [|c|c]; step_serve.
    - create_cases s0; cbn [fst snd]; rewrite since_app, Hs0.
      all: split; [by eexists|]; by repeat constructor.
    - rewrite destroy_run. cbn [fst snd]. rewrite since_app.
      split; [by eexists|]; by repeat constructor.
    - pose proof (validate_state c s0) as Hv.
      destruct (run (validate c) s0) as [r s']. cbn [fst snd] in *. subst s'.
      rewrite since_same. split; [by eexists|done]. }
  destruct (serve_all_ind _ _ (Forall_nil_2 _)
              (λ evs1 evs2 H1 H2, proj2 (Forall_app _ evs1 evs2) (conj H1 H2))
              Hstep calls (initial o w)) as [H1 H2].
  { by exists 0. }
  split; [|done]. rewrite serve_all_log. by cbn.
Qed.

(** X12: in any series of calls, the errors the calls are rejected with
    are the errors [open()], the handshake and [close()] rejected with, in
    the same order: none is swallowed, replaced or made up; and the factory
    sleeps once per failed [create()] and at no other time. *)
Theorem errors_are_passed_on (calls : list Call) (s : State) :
  errors_raised (serve_all calls s).1 =
    errors_seen (since s (serve_all calls s).2) ∧
  length (slept (since s (serve_all calls s).2)) =
    length (filter (λ reply, is_failed_create reply) (serve_all calls s).1).
Proof.
  revert s. induction calls as [|call calls IH]; intros s.
  - cbn. by rewrite since_same.
  - rewrite since_serve_all_cons, serve_all_cons. cbn [fst].
    unfold errors_seen. rewrite omap_app, slept_app, length_app.
    destruct (IH (serve call s).2) as [IH1 IH2]. unfold errors_seen in IH1.
    rewrite IH2, <- IH1. clear IH IH1 IH2.
    set (rest := (serve_all calls (serve call s).2).1).
    destruct call as [|c|c]; step_serve.
    + create_cases s; cbn [fst snd]; rewrite since_app.
      1,2: by rewrite filter_cons_True by done.
      by rewrite filter_cons_False by (cbn; tauto).
    + rewrite destroy_run. cbn [fst snd]. rewrite since_app.
      rewrite filter_cons_False by (cbn; tauto).
      by destruct (close_io c (env_at_close c s)) as [[e|[]] w].
    + run_method. rewrite filter_cons_False by (cbn; tauto).
      by rewrite since_same.
Qed.

(** ** What the factory has done when it first suspends *)

(** X13: [create()] always suspends at [open()], called on the connection
    it constructed.  When it does, the factory is unchanged, the connection
    is a new object, unopened, bound to the factory's port, host and TLS
    options, with the error sink as its only listener; every connection
    that existed before is as it was, and no sink has been called. *)
Theorem create_suspends_at_open (s : State) :
  (∃ k, (advance create s).1 = Await (Opening (new_ref s)) k) ∧
  (advance create s).2 =
    {| this := this s;
       env := env_at_open s;
       log := log s ++
         [Debug "+1" [];
          New (new_ref s) (port (this s)) (host (this s)) (tlsOptions (this s));
          On (new_ref s) "error" (SinkListener (onConnectionError (this s)));
          Open (new_ref s)] |} ∧
  heap (env s) !! new_ref s = None ∧
  heap (env_at_open s) =
    heap (env s) ++
    [mkConnection (port (this s)) (host (this s)) (tlsOptions (this s)) false
       [("error"%string, SinkListener (onConnectionError (this s)))]] ∧
  reported (env_at_open s) = reported (env s) ∧
  net (env_at_open s) = net (env s).
Proof.
  split; [|split; [|split; [|split; [|done]]]].
  - unfold create, debug, step, await, mbind, Task_bind, mret, Task_ret.
    cbn [bind try_catch advance perform env_new fst snd]. by eexists.
  - unfold env_at_open, new_ref, env_new. cbn [fst snd].
    unfold create, debug, step, await, mbind, Task_bind, mret, Task_ret.
    cbn [bind try_catch advance perform call env_new fst snd].
    unfold record, with_env. cbn [this env log]. by rewrite <- !app_assoc.
  - apply lookup_ge_None. unfold new_ref. lia.
  - unfold env_at_open, new_ref, env_on, env_new. cbn [fst snd heap with_heap].
    rewrite <- (Nat.add_0_r (length (heap (env s)))) at 1.
    by rewrite alter_app_r.
Qed.

Lemma reported_run_listeners arg (ls : list Listener) : ∀ w : Env,
  reported (foldl (λ w' l, run_listener arg l w') w ls) =
    reported w ++
    omap (λ l, match l with
               | SinkListener k => Some (k, arg)
               | RemoveAllListenersOf _ => None
               end) ls.
Proof.
  induction ls as [|l ls IH]; intros w; cbn [foldl omap].
  - by rewrite app_nil_r.
  - rewrite IH. destruct l as [k|c]; cbn; [|done]. by rewrite <- app_assoc.
Qed.

(** X14: when [destroy(c)] calls [close()], it has added its ["close"]
    listener and nothing else: the ["error"] listeners of [c] are the ones
    it had, so an error signalled while closing still reaches the same
    sinks; no connection has changed its [connected] flag, and the other
    connections keep their listeners. *)
Theorem destroy_keeps_error_listeners (s : State) (c : ConnRef) :
  env (advance (destroy c) s).2 = env_at_close c s ∧
  listeners_for c "error" (env_at_close c s) = listeners_for c "error" (env s) ∧
  (∀ e : Error,
     reported (emit c "error" (Some e) (env_at_close c s)) =
       reported (env s) ++ deliveries c "error" (Some e) (env s)) ∧
  (∀ c', env_connected c' (env_at_close c s) = env_connected c' (env s)) ∧
  (∀ c', c' ≠ c → listeners_of c' (env_at_close c s) = listeners_of c' (env s)).
Proof.
  assert (Hl : listeners_for c "error" (env_at_close c s) =
               listeners_for c "error" (env s)).
  { unfold listeners_for, env_at_close.
    destruct (heap (env s) !! c) as [x|] eqn:Hx.
    - rewrite listeners_of_env_on by done.
      rewrite filter_app, filter_cons_False by done.
      by rewrite filter_nil, app_nil_r.
    - unfold listeners_of, env_on. cbn [heap with_heap].
      by rewrite list_lookup_alter_eq, Hx. }
  split; [|split; [done|split; [|split]]].
  - unfold destroy, debug, step, await, mbind, Task_bind, mret, Task_ret.
    by cbn [bind advance perform call].
  - intros e. unfold emit, deliveries.
    by rewrite reported_run_listeners, Hl.
  - intros c'. unfold env_connected, env_at_close, env_on. cbn [heap with_heap].
    destruct (decide (c = c')) as [->|Hne].
    + rewrite list_lookup_alter_eq. by destruct (heap (env s) !! c').
    + by rewrite list_lookup_alter_ne.
  - intros c' Hne. unfold listeners_of, env_at_close, env_on.
    cbn [heap with_heap]. by rewrite list_lookup_alter_ne.
Qed.

End Theory.

(** * The factory against the scripted server *)

Section Scenarios.

Import Scripted.

Local Open Scope string_scope.

(** The server rejects the first two handshakes and accepts the third:
    [create()] rejects twice, after waits of 200 and 400, then returns the
    third connection, and [attempts] is 0. *)
Example two_rejections_then_a_connection :
  (creates 3 (start two_bad_handshakes)).1 =
    [Rejected "denied"; Rejected "denied"; Fulfilled 2%nat] ∧
  slept (log (creates 3 (start two_bad_handshakes)).2) = [200; 400] ∧
  attempts (this (creates 3 (start two_bad_handshakes)).2) = 0.
Proof. by vm_compute. Qed.

(** 21 failures in a row: the 21st waits 4000, as the 20th did. *)
Example twenty_first_failure_waits_4000 :
  drop 19 (slept (log (creates 21 (start (outage 21))).2)) = [4000; 4000] ∧
  clock (net (env (creates 21 (start (outage 21))).2)) = 46000.
Proof. by vm_compute. Qed.

(** A failed [open()] signals ["error"] on the connection: the sink
    registered by [create()] receives it. *)
Example open_error_reaches_the_sink :
  reported (env (run create (start (outage 1))).2) =
    [(ConsoleError, Some "ECONNREFUSED")].
Proof. by vm_compute. Qed.

(** [destroy] on a pooled connection: [close()] signals ["close"], and the
    connection ends up closed and without listeners. *)
Example destroy_removes_listeners :
  heap (env (serve_all [CallCreate; CallDestroy 0%nat] (start [])).2) =
    [mkConnection (PortNumber 7419) "localhost" None false []].
Proof. by vm_compute. Qed.

(** Two invocations in flight at once, both refused: the second failure to
    be caught sees the counter of the first and waits 400. *)
Example two_failures_in_flight :
  results (turns [Invoke; Invoke; Resume 0; Resume 0; Resume 0; Resume 0]
             (idle options (world (outage 2)))) =
    [Rejected "ECONNREFUSED"; Rejected "ECONNREFUSED"] ∧
  naps (log (factory
    (turns [Invoke; Invoke; Resume 0; Resume 0; Resume 0; Resume 0]
       (idle options (world (outage 2)))))) = [200; 400] ∧
  attempts (this (factory
    (turns [Invoke; Invoke; Resume 0; Resume 0; Resume 0; Resume 0]
       (idle options (world (outage 2)))))) = 2.
Proof. by vm_compute. Qed.

(** A second invocation succeeds while a failed one sleeps: the counter is
    reset by the success, and the rejection delivered afterwards does not
    touch it. *)
Example success_while_a_failure_sleeps :
  results (turns [Invoke; Resume 0; Invoke; Resume 1; Resume 1; Resume 0]
             (idle options (world [Some "ECONNREFUSED"; None; None]))) =
    [Fulfilled 1%nat; Rejected "ECONNREFUSED"] ∧
  attempts (this (factory
    (turns [Invoke; Resume 0; Invoke; Resume 1; Resume 1; Resume 0]
       (idle options (world [Some "ECONNREFUSED"; None; None]))))) = 0.
Proof. by vm_compute. Qed.

(** [backoff_ramp] on an outage of 21 refused connections. *)
Lemma backoff_ramp_witness :
  attempts (this (creates 21 (start (outage 21))).2) = 21 ∧
  slept (since (start (outage 21)) (creates 21 (start (outage 21))).2) =
    (λ k : nat, Z.min (Z.of_nat k) 20 * 200) <$> seq 1 21 ∧
  naps (since (start (outage 21)) (creates 21 (start (outage 21))).2) =
    slept (since (start (outage 21)) (creates 21 (start (outage 21))).2) ∧
  last (slept (since (start (outage 21)) (creates 21 (start (outage 21))).2)) =
    Some (Z.min (Z.of_nat 21) 20 * 200) ∧
  ((20 ≤ 21)%nat →
   last (slept (since (start (outage 21)) (creates 21 (start (outage 21))).2)) =
     Some 4000).
Proof.
  apply (backoff_ramp open_io close_io sleep_io 21 (start (outage 21))).
  - vm_compute. reflexivity.
  - vm_compute. repeat constructor.
Defined.

(** [create_returns_only_after_handshake] on a server that accepts. *)
Lemma create_returns_only_after_handshake_witness :
  0%nat = new_ref (start []) ∧
  ∃ (g : string) (w : World) (id : string),
    open_io 0 (env_at_open (start [])) = (inr g, w) ∧
    handshake (this (start [])) 0%nat g w = (inr id, env (run create (start [])).2) ∧
    since (start []) (run create (start [])).2 =
      [Debug "+1" [];
       New 0%nat (PortNumber 7419) "localhost" None;
       On 0%nat "error" (SinkListener ConsoleError);
       Open 0%nat;
       Opened 0%nat (inr g);
       Handshake 0%nat g;
       Handshaken 0%nat g (inr id)].
Proof.
  apply (create_returns_only_after_handshake open_io close_io sleep_io
           (start []) 0%nat (run create (start [])).2).
  vm_compute. reflexivity.
Defined.

(** [create_success_resets_attempts] after two rejected handshakes: the
    counter goes from 2 to 0. *)
Lemma create_success_resets_attempts_witness :
  attempts (this (creates 2 (start two_bad_handshakes)).2) = 2 ∧
  attempts (this (run create (creates 2 (start two_bad_handshakes)).2).2) = 0.
Proof.
  split; [vm_compute; reflexivity|].
  apply (create_success_resets_attempts open_io close_io sleep_io
           (creates 2 (start two_bad_handshakes)).2 2%nat
           (run create (creates 2 (start two_bad_handshakes)).2).2).
  vm_compute. reflexivity.
Defined.

(** [create_rejects_iff_thrown] on a rejected handshake: [create()] rejects
    with the handshake's error. *)
Lemma create_rejects_iff_thrown_witness :
  ∃ s', run create (start [None; Some "denied"]) = (Rejected "denied", s').
Proof.
  apply (proj1 (create_rejects_iff_thrown open_io close_io sleep_io
                  (start [None; Some "denied"]) "denied")).
  vm_compute. reflexivity.
Defined.

(** [validate_reads_connected] on the connection [create()] returned. *)
Lemma validate_reads_connected_witness :
  run (validate 0) (run create (start [])).2 = (Fulfilled true, (run create (start [])).2).
Proof.
  apply (validate_reads_connected open_io close_io sleep_io (run create (start [])).2 0%nat
           (mkConnection (PortNumber 7419) "localhost" None true
              [("error", SinkListener ConsoleError)])).
  vm_compute. reflexivity.
Defined.

(** [create_failure_does_not_close] on a refused connection. *)
Lemma create_failure_does_not_close_witness :
  closes (since (start (outage 1)) (run create (start (outage 1))).2) = [] ∧
  (∀ c, Close c ∉ since (start (outage 1)) (run create (start (outage 1))).2) ∧
  env (run create (start (outage 1))).2 =
    sleep_io (200 * Z.min (attempts (this (run create (start (outage 1))).2)) 20)
      (attempt open_io (start (outage 1))).2.
Proof.
  apply (create_failure_does_not_close open_io close_io sleep_io
           (start (outage 1)) "ECONNREFUSED").
  vm_compute. reflexivity.
Defined.

(** [destroy_closes_once] on the connection [create()] returned. *)
Lemma destroy_closes_once_witness :
  run (destroy 0) (run create (start [])).2 =
    (settled_as (close_io 0 (env_at_close 0 (run create (start [])).2)).1,
     {| this := this (run create (start [])).2;
        env := (close_io 0 (env_at_close 0 (run create (start [])).2)).2;
        log := log (run create (start [])).2 ++
          [Debug "-1" [];
           On 0%nat "close" (RemoveAllListenersOf 0);
           Close 0%nat;
           Closed 0%nat (close_io 0 (env_at_close 0 (run create (start [])).2)).1] |}) ∧
  closes (since (run create (start [])).2 (run (destroy 0) (run create (start [])).2).2) = [0%nat] ∧
  (∀ e, (run (destroy 0) (run create (start [])).2).1 = Rejected e ↔
        (close_io 0 (env_at_close 0 (run create (start [])).2)).1 = inl e) ∧
  RemoveAllListenersOf 0 ∈
    listeners_for 0 "close" (env_at_close 0 (run create (start [])).2) ∧
  listeners_of 0
    (emit 0 "close" None (env_at_close 0 (run create (start [])).2)) = [].
Proof.
  apply (destroy_closes_once open_io close_io sleep_io (run create (start [])).2 0%nat).
  vm_compute. eexists. reflexivity.
Defined.

End Scenarios.

(** * More scenarios *)

Section MoreScenarios.

Import Scripted.

(** [total_backoff] on an outage of 21 refused connections: 46000 in all. *)
Lemma total_backoff_witness :
  total (slept (since (start (outage 21)) (creates 21 (start (outage 21))).2)) =
    46000.
Proof.
  apply (total_backoff open_io close_io sleep_io 21 (start (outage 21))).
  - vm_compute. reflexivity.
  - vm_compute. repeat constructor.
Defined.

(** [backoff_never_shrinks] on the second and third of three failures. *)
Lemma backoff_never_shrinks_witness : 400 ≤ 600 ≤ 400 + 200.
Proof.
  apply (backoff_never_shrinks open_io close_io sleep_io 3 (start (outage 3))
           1%nat 400 600).
  - vm_compute. repeat constructor.
  - vm_compute. reflexivity.
  - vm_compute. reflexivity.
Defined.


(** [first_failure_after_success_waits_200]: two rejected handshakes, a
    success, then a refused connection. *)
Lemma first_failure_after_success_waits_200_witness :
  slept (since
    (run create (creates 2 (start (two_bad_handshakes ++ outage 1))).2).2
    (run create
       (run create (creates 2 (start (two_bad_handshakes ++ outage 1))).2).2).2) =
    [200] ∧
  attempts (this
    (run create
       (run create (creates 2 (start (two_bad_handshakes ++ outage 1))).2).2).2) =
    1.
Proof.
  apply (first_failure_after_success_waits_200 open_io close_io sleep_io
           (creates 2 (start (two_bad_handshakes ++ outage 1))).2 2%nat
           (run create (creates 2 (start (two_bad_handshakes ++ outage 1))).2).2
           "ECONNREFUSED"%string).
  - vm_compute. reflexivity.
  - vm_compute. reflexivity.
Defined.

(** [delays_within_bounds] on two refused connections, a destroy, a success
    and a validate. *)
Lemma delays_within_bounds_witness :
  Forall within_bounds
    (slept (since (start (outage 2))
       (serve_all [CallCreate; CallCreate; CallDestroy 0; CallCreate;
                   CallValidate 2]
          (start (outage 2))).2)) ∧
  0 ≤ attempts (this
    (serve_all [CallCreate; CallCreate; CallDestroy 0; CallCreate;
                CallValidate 2]
       (start (outage 2))).2).
Proof.
  apply (delays_within_bounds open_io close_io sleep_io
           [CallCreate; CallCreate; CallDestroy 0; CallCreate; CallValidate 2]
           (start (outage 2))).
  by vm_compute.
Defined.

End MoreScenarios.
